(** * Black-Scholes-Merton pricer: a shallow embedding of [bsm_pricer.py]

    The Python module prices European equity options and forwards and
    approximates delta and gamma by central differences.  Python floats are
    idealised as the real numbers [R]: [np.log], [np.exp] and [np.sqrt] become
    [ln], [exp] and [sqrt], [x**2] becomes [x ^ 2], and [scipy.stats.norm.cdf]
    becomes [norm_cdf], one half plus the integral of the standard normal
    density from [0] to [x].  Rounding, overflow and underflow are outside the
    model of [bsm_pricer].  The unguarded divisions are studied on
    [bsm_pricer_result], [bsm_delta_result] and [bsm_gamma_result], which keep
    Python's [ZeroDivisionError] and numpy's infinities and not-a-numbers. *)

From Stdlib Require Import Reals Lra String Ascii NArith Bool.
From Stdlib Require Import Ranalysis RiemannInt.

Local Open Scope R_scope.

(** ** Data model *)

Record Equity : Type := mkEquity {
  spot : R;
  dividend_yield : R;
  volatility : R
}.

Record EquityOption : Type := mkEquityOption {
  strike : R;
  time_to_maturity : R;
  put_call : string
}.

(** [EquityForward] has the same field names as [EquityOption] in the source;
    they carry a [forward_] prefix here. *)
Record EquityForward : Type := mkEquityForward {
  forward_strike : R;
  forward_time_to_maturity : R
}.

(** ** Strings: [str.lower]

    A character is a code point below 256.  [str.lower] moves [A]-[Z] and the
    Latin-1 capitals (192 to 222 except the multiplication sign 215) 32
    places up and leaves every other code point alone. *)

Definition lower_char (c : ascii) : ascii :=
  let n := N_of_ascii c in
  if ((65 <=? n) && (n <=? 90) ||
      (192 <=? n) && (n <=? 222) && negb (n =? 215))%N
  then ascii_of_N (n + 32)
  else c.

Fixpoint lower (s : string) : string :=
  match s with
  | EmptyString => EmptyString
  | String c rest => String (lower_char c) (lower rest)
  end.

(** The test [option.put_call.lower() == "call"]. *)
Definition is_call (option : EquityOption) : bool :=
  String.eqb (lower (put_call option)) "call".

(** ** Numeric primitives *)

(** Python's two-argument [max(a, b)]: the second argument wins only when it
    is strictly larger. *)
Definition py_max (a b : R) : R :=
  if Rlt_dec a b then b else a.

(** The standard normal density. *)
Definition norm_pdf (x : R) : R :=
  exp (- (x ^ 2) / 2) / sqrt (2 * PI).

Lemma norm_pdf_derivable (x : R) : derivable_pt norm_pdf x.
Proof.
  unfold norm_pdf. reg.
Qed.

Lemma norm_pdf_continuity : continuity norm_pdf.
Proof.
  intro x. apply derivable_continuous_pt, norm_pdf_derivable.
Qed.

(** The density is integrable on every interval, in either orientation. *)
Definition norm_pdf_integrable (a b : R) : Riemann_integrable norm_pdf a b :=
  match Rle_dec a b with
  | left Hab =>
      continuity_implies_RiemannInt Hab (fun x _ => norm_pdf_continuity x)
  | right Hba =>
      RiemannInt_P1
        (continuity_implies_RiemannInt
           (Rlt_le _ _ (Rnot_le_lt _ _ Hba))
           (fun x _ => norm_pdf_continuity x))
  end.

(** [scipy.stats.norm.cdf]: the standard normal distribution function,
    [1/2 + integral of norm_pdf from 0 to x] (that is
    [(1 + erf (x / sqrt 2)) / 2]). *)
Definition norm_cdf (x : R) : R :=
  1 / 2 + RiemannInt (norm_pdf_integrable 0 x).

(** A numpy [float64] result with rounding idealised away: a real number, an
    infinity or a not-a-number. *)
Inductive np_float : Type :=
  | np_finite (x : R)
  | np_inf
  | np_nan.

(** numpy's [/] on two [float64] operands holding the reals [x] and [y].  It
    never raises: a zero divisor gives [nan] when the dividend is zero too
    and an infinity otherwise. *)
Definition np_true_divide (x y : R) : np_float :=
  if Req_dec_T y 0
  then (if Req_dec_T x 0 then np_nan else np_inf)
  else np_finite (x / y).

(** ** The pricers *)

Definition bsm_pricer (underlying : Equity) (option : EquityOption)
    (rate : R) : R :=
  let S := spot underlying in
  let K := strike option in
  let T := time_to_maturity option in
  let r := rate in
  let q := dividend_yield underlying in
  let sigma := volatility underlying in
  if Rle_dec T 0 then
    if String.eqb (lower (put_call option)) "call"
    then py_max (S - K) 0
    else py_max (K - S) 0
  else
    let d1 :=
      (ln (S / K) + (r - q + 0.5 * sigma ^ 2) * T) / (sigma * sqrt T) in
    let d2 := d1 - sigma * sqrt T in
    if String.eqb (lower (put_call option)) "call"
    then S * exp (- q * T) * norm_cdf d1 - K * exp (- r * T) * norm_cdf d2
    else K * exp (- r * T) * norm_cdf (- d2)
         - S * exp (- q * T) * norm_cdf (- d1).

(** The default value of the [bump] parameter of the two Greeks. *)
Definition default_bump : R := 0.001.

Definition bsm_delta (underlying : Equity) (option : EquityOption)
    (rate : R) (bump : R) : R :=
  let original_spot := spot underlying in
  let bump_up_spot := original_spot * (1 + bump) in
  let bump_down_spot := original_spot * (1 - bump) in
  let underlying_up :=
    mkEquity bump_up_spot (dividend_yield underlying)
      (volatility underlying) in
  let underlying_down :=
    mkEquity bump_down_spot (dividend_yield underlying)
      (volatility underlying) in
  let price_up := bsm_pricer underlying_up option rate in
  let price_down := bsm_pricer underlying_down option rate in
  (price_up - price_down) / (2 * (bump * original_spot)).

Definition bsm_gamma (underlying : Equity) (option : EquityOption)
    (rate : R) (bump : R) : R :=
  let original_spot := spot underlying in
  let bump_up_spot := original_spot * (1 + bump) in
  let bump_down_spot := original_spot * (1 - bump) in
  let underlying_up :=
    mkEquity bump_up_spot (dividend_yield underlying)
      (volatility underlying) in
  let underlying_down :=
    mkEquity bump_down_spot (dividend_yield underlying)
      (volatility underlying) in
  let price_up := bsm_pricer underlying_up option rate in
  let price_mid := bsm_pricer underlying option rate in
  let price_down := bsm_pricer underlying_down option rate in
  (price_up + price_down - 2 * price_mid) / ((bump * original_spot) ^ 2).

Definition fwd_pricer (underlying : Equity) (forward : EquityForward)
    (rate : R) : R :=
  let S := spot underlying in
  let q := dividend_yield underlying in
  let r := rate in
  let K := forward_strike forward in
  let T := forward_time_to_maturity forward in
  S * exp ((r - q) * T) - K * exp (- r * T).

(** [bsm_delta] and [bsm_gamma] called without their [bump] argument. *)
Definition bsm_delta_default (underlying : Equity) (option : EquityOption)
    (rate : R) : R :=
  bsm_delta underlying option rate default_bump.

Definition bsm_gamma_default (underlying : Equity) (option : EquityOption)
    (rate : R) : R :=
  bsm_gamma underlying option rate default_bump.

(** ** Auxiliary views of the pricer *)

(** The price of [option] on a fresh [Equity] that takes the spot [x] and
    keeps the dividend yield and volatility of [underlying]. *)
Definition price_at_spot (underlying : Equity) (option : EquityOption)
    (rate : R) (x : R) : R :=
  bsm_pricer
    (mkEquity x (dividend_yield underlying) (volatility underlying))
    option rate.

(** The general branch of [bsm_pricer] as a function of the spot [x], the
    other inputs being fixed. *)
Definition d1_at (K T r q sigma x : R) : R :=
  (ln (x / K) + (r - q + 0.5 * sigma ^ 2) * T) / (sigma * sqrt T).

Definition call_at (K T r q sigma x : R) : R :=
  x * exp (- q * T) * norm_cdf (d1_at K T r q sigma x)
  - K * exp (- r * T) * norm_cdf (d1_at K T r q sigma x - sigma * sqrt T).

Definition put_at (K T r q sigma x : R) : R :=
  K * exp (- r * T) * norm_cdf (- (d1_at K T r q sigma x - sigma * sqrt T))
  - x * exp (- q * T) * norm_cdf (- d1_at K T r q sigma x).

(** ** The last division of the Greeks

    [bsm_delta] and [bsm_gamma] end with an unguarded [/].  Its dividend is
    built from prices: Python numbers when [bsm_pricer] took the [T <= 0]
    branch ([max] of Python floats), numpy [float64] otherwise.  Its divisor
    is a Python float.  Python's own division raises on a zero divisor;
    numpy's returns an infinity or a not-a-number. *)
Inductive py_result : Type :=
  | py_returns (v : np_float)
  | py_ZeroDivisionError.

Definition py_true_divide (x y : R) : py_result :=
  if Req_dec_T y 0 then py_ZeroDivisionError
  else py_returns (np_finite (x / y)).

(** Whether [bsm_pricer] hands back a numpy [float64] for this option. *)
Definition price_is_numpy (option : EquityOption) : bool :=
  if Rle_dec (time_to_maturity option) 0 then false else true.

Definition greek_divide (option : EquityOption) (x y : R) : py_result :=
  if price_is_numpy option
  then py_returns (np_true_divide x y)
  else py_true_divide x y.

Definition bsm_delta_result (underlying : Equity) (option : EquityOption)
    (rate : R) (bump : R) : py_result :=
  let original_spot := spot underlying in
  let bump_up_spot := original_spot * (1 + bump) in
  let bump_down_spot := original_spot * (1 - bump) in
  let underlying_up :=
    mkEquity bump_up_spot (dividend_yield underlying)
      (volatility underlying) in
  let underlying_down :=
    mkEquity bump_down_spot (dividend_yield underlying)
      (volatility underlying) in
  let price_up := bsm_pricer underlying_up option rate in
  let price_down := bsm_pricer underlying_down option rate in
  greek_divide option (price_up - price_down) (2 * (bump * original_spot)).

Definition bsm_gamma_result (underlying : Equity) (option : EquityOption)
    (rate : R) (bump : R) : py_result :=
  let original_spot := spot underlying in
  let bump_up_spot := original_spot * (1 + bump) in
  let bump_down_spot := original_spot * (1 - bump) in
  let underlying_up :=
    mkEquity bump_up_spot (dividend_yield underlying)
      (volatility underlying) in
  let underlying_down :=
    mkEquity bump_down_spot (dividend_yield underlying)
      (volatility underlying) in
  let price_up := bsm_pricer underlying_up option rate in
  let price_mid := bsm_pricer underlying option rate in
  let price_down := bsm_pricer underlying_down option rate in
  greek_divide option (price_up + price_down - 2 * price_mid)
    ((bump * original_spot) ^ 2).

(** ** The pricer with its exceptional paths

    [bsm_pricer_result] is [bsm_pricer] once more, keeping what the
    real-valued model leaves out: Python's [S/K] raises on a zero strike,
    [np.log] gives minus infinity at zero and not-a-number below it, and
    numpy's division by [sigma * np.sqrt(T)] gives a signed infinity or a
    not-a-number on a zero divisor.  Rounding and overflow stay idealised
    away; the real [0] stands for the float [0.0]. *)

(** A numpy [float64] with the sign of its infinities. *)
Inductive np_ext : Type :=
  | ext_fin (x : R)
  | ext_pinf
  | ext_ninf
  | ext_nan.

Definition np_log (x : R) : np_ext :=
  if Rlt_dec 0 x then ext_fin (ln x)
  else if Req_dec_T x 0 then ext_ninf
  else ext_nan.

(** [v + y], [v - y] and [v / y] for a numpy value [v] and a finite float
    [y]; [- v]. *)
Definition ext_add (v : np_ext) (y : R) : np_ext :=
  match v with
  | ext_fin x => ext_fin (x + y)
  | other => other
  end.

Definition ext_sub (v : np_ext) (y : R) : np_ext :=
  match v with
  | ext_fin x => ext_fin (x - y)
  | other => other
  end.

Definition ext_neg (v : np_ext) : np_ext :=
  match v with
  | ext_fin x => ext_fin (- x)
  | ext_pinf => ext_ninf
  | ext_ninf => ext_pinf
  | ext_nan => ext_nan
  end.

Definition ext_divide (v : np_ext) (y : R) : np_ext :=
  match v with
  | ext_fin x =>
      if Req_dec_T y 0
      then (if Rlt_dec 0 x then ext_pinf
            else if Rlt_dec x 0 then ext_ninf
            else ext_nan)
      else ext_fin (x / y)
  | ext_pinf => if Rlt_dec y 0 then ext_ninf else ext_pinf
  | ext_ninf => if Rlt_dec y 0 then ext_pinf else ext_ninf
  | ext_nan => ext_nan
  end.

(** [norm.cdf] on a numpy value: a number, or [None] for not-a-number. *)
Definition norm_cdf_ext (v : np_ext) : option R :=
  match v with
  | ext_fin x => Some (norm_cdf x)
  | ext_pinf => Some 1
  | ext_ninf => Some 0
  | ext_nan => None
  end.

(** [c * v] and [v - w] where not-a-number propagates. *)
Definition nan_scale (c : R) (v : option R) : option R :=
  match v with
  | Some x => Some (c * x)
  | None => None
  end.

Definition nan_minus (v w : option R) : option R :=
  match v, w with
  | Some x, Some y => Some (x - y)
  | _, _ => None
  end.

Definition np_of_value (v : option R) : np_float :=
  match v with
  | Some x => np_finite x
  | None => np_nan
  end.

(** Line 39 of the source, once [S/K] has been taken. *)
Definition bsm_d1 (underlying : Equity) (option : EquityOption)
    (rate : R) : np_ext :=
  let S := spot underlying in
  let K := strike option in
  let T := time_to_maturity option in
  let r := rate in
  let q := dividend_yield underlying in
  let sigma := volatility underlying in
  ext_divide
    (ext_add (np_log (S / K)) ((r - q + 0.5 * sigma ^ 2) * T))
    (sigma * sqrt T).

Definition bsm_pricer_result (underlying : Equity) (option : EquityOption)
    (rate : R) : py_result :=
  let S := spot underlying in
  let K := strike option in
  let T := time_to_maturity option in
  let r := rate in
  let q := dividend_yield underlying in
  let sigma := volatility underlying in
  if Rle_dec T 0 then
    if String.eqb (lower (put_call option)) "call"
    then py_returns (np_finite (py_max (S - K) 0))
    else py_returns (np_finite (py_max (K - S) 0))
  else
    if Req_dec_T K 0 then py_ZeroDivisionError
    else
      let d1 := bsm_d1 underlying option rate in
      let d2 := ext_sub d1 (sigma * sqrt T) in
      if String.eqb (lower (put_call option)) "call"
      then
        py_returns
          (np_of_value
             (nan_minus
                (nan_scale (S * exp (- q * T)) (norm_cdf_ext d1))
                (nan_scale (K * exp (- r * T)) (norm_cdf_ext d2))))
      else
        py_returns
          (np_of_value
             (nan_minus
                (nan_scale (K * exp (- r * T)) (norm_cdf_ext (ext_neg d2)))
                (nan_scale (S * exp (- q * T))
                   (norm_cdf_ext (ext_neg d1))))).

(** ** The normal distribution function *)

Lemma norm_pdf_pos (x : R) : 0 < norm_pdf x.
Proof.
  unfold norm_pdf. apply Rdiv_lt_0_compat.
  - apply exp_pos.
  - apply sqrt_lt_R0. pose proof PI_RGT_0. lra.
Qed.

Lemma norm_pdf_even (x : R) : norm_pdf (- x) = norm_pdf x.
Proof.
  unfold norm_pdf. f_equal. f_equal. lra.
Qed.

(** Chasles' relation, phrased for the fixed family of integrability proofs. *)
Lemma norm_pdf_chasles (a b c : R) :
  RiemannInt (norm_pdf_integrable a b) + RiemannInt (norm_pdf_integrable b c)
  = RiemannInt (norm_pdf_integrable a c).
Proof. apply RiemannInt_P26. Qed.

Lemma norm_cdf_shift (a y : R) :
  norm_cdf y = norm_cdf a + RiemannInt (norm_pdf_integrable a y).
Proof.
  unfold norm_cdf. rewrite <- (norm_pdf_chasles 0 a y). lra.
Qed.

(** Fundamental theorem of calculus: the density is the derivative of the
    distribution function at every point. *)
Lemma norm_cdf_derivable_pt_lim (x : R) :
  derivable_pt_lim norm_cdf x (norm_pdf x).
Proof.
  assert (Hab : x - 1 <= x + 1) by lra.
  pose (C0 := fun (t : R) (_ : x - 1 <= t <= x + 1) => norm_pdf_continuity t).
  pose proof (RiemannInt_P27 (f := norm_pdf) (x := x) Hab C0) as HP.
  assert (Hx : x - 1 < x < x + 1) by lra.
  specialize (HP Hx).
  assert (Hloc : forall y, x - 1 <= y <= x + 1 ->
            norm_cdf y = norm_cdf (x - 1) + primitive Hab (FTC_P1 Hab C0) y).
  { intros y [Hy1 Hy2]. rewrite (norm_cdf_shift (x - 1) y). f_equal.
    unfold primitive.
    destruct (Rle_dec (x - 1) y) as [Ha | Ha]; [| lra].
    destruct (Rle_dec y (x + 1)) as [Hb | Hb]; [| lra].
    apply RiemannInt_P5. }
  intros eps Heps. destruct (HP eps Heps) as [delta Hdelta].
  assert (Hd : 0 < Rmin delta 1).
  { apply Rmin_pos; [apply cond_pos | lra]. }
  exists (mkposreal _ Hd). simpl. intros h Hh0 Hh.
  assert (Hh1 : Rabs h < delta).
  { eapply Rlt_le_trans; [exact Hh | apply Rmin_l]. }
  assert (Hh2 : Rabs h < 1).
  { eapply Rlt_le_trans; [exact Hh | apply Rmin_r]. }
  rewrite (Hloc (x + h)), (Hloc x).
  - replace (norm_cdf (x - 1) + primitive Hab (FTC_P1 Hab C0) (x + h)
             - (norm_cdf (x - 1) + primitive Hab (FTC_P1 Hab C0) x))
      with (primitive Hab (FTC_P1 Hab C0) (x + h)
            - primitive Hab (FTC_P1 Hab C0) x) by ring.
    apply Hdelta; assumption.
  - lra.
  - apply Rabs_def2 in Hh2. lra.
Qed.

Lemma norm_cdf_0 : norm_cdf 0 = 1 / 2.
Proof.
  unfold norm_cdf. rewrite RiemannInt_P9. lra.
Qed.

(** The distribution function is nondecreasing. *)
Lemma norm_cdf_incr (a b : R) : a <= b -> norm_cdf a <= norm_cdf b.
Proof.
  intros [Hlt | ->]; [| lra].
  destruct (MVT_cor2 norm_cdf norm_pdf a b Hlt
              (fun c _ => norm_cdf_derivable_pt_lim c)) as [c [Hc _]].
  pose proof (norm_pdf_pos c). nra.
Qed.

(** Symmetry of the normal law: [N(-x) = 1 - N(x)]. *)
Lemma norm_cdf_opp (x : R) : norm_cdf (- x) = 1 - norm_cdf x.
Proof.
  pose (g := fun t : R => norm_cdf (- t) + norm_cdf t).
  assert (Hg : forall t, derivable_pt_lim g t 0).
  { intro t. unfold g.
    replace 0 with (norm_pdf (- t) * (-1) + norm_pdf t)
      by (rewrite norm_pdf_even; ring).
    apply derivable_pt_lim_plus; [| apply norm_cdf_derivable_pt_lim].
    apply (derivable_pt_lim_comp (fun t => - t) norm_cdf).
    - replace (-1) with (- 1) by ring.
      apply derivable_pt_lim_opp, derivable_pt_lim_id.
    - apply norm_cdf_derivable_pt_lim. }
  assert (Hconst : forall t, g t = g 0).
  { intro t. destruct (Rtotal_order 0 t) as [Hlt | [<- | Hgt]].
    - destruct (MVT_cor2 g (fun _ => 0) 0 t Hlt (fun c _ => Hg c))
        as [c [Hc _]]. lra.
    - reflexivity.
    - destruct (MVT_cor2 g (fun _ => 0) t 0 Hgt (fun c _ => Hg c))
        as [c [Hc _]]. lra. }
  specialize (Hconst x). unfold g in Hconst.
  rewrite Ropp_0, norm_cdf_0 in Hconst. lra.
Qed.

(** ** Convexity from a nondecreasing derivative *)

(** A function whose derivative is nondecreasing on [[lo, hi]] has a
    nonnegative centred second difference there. *)
Lemma second_difference_nonneg (f f' : R -> R) (lo mid hi : R) :
  lo < mid -> mid < hi -> mid - lo = hi - mid ->
  (forall c, lo <= c <= hi -> derivable_pt_lim f c (f' c)) ->
  (forall x y, lo <= x -> x <= y -> y <= hi -> f' x <= f' y) ->
  0 <= f hi + f lo - 2 * f mid.
Proof.
  intros Hlo Hhi Hstep Hder Hmono.
  destruct (MVT_cor2 f f' lo mid Hlo) as [c1 [E1 [L1 U1]]].
  { intros c Hc. apply Hder. lra. }
  destruct (MVT_cor2 f f' mid hi Hhi) as [c2 [E2 [L2 U2]]].
  { intros c Hc. apply Hder. lra. }
  assert (Hc : f' c1 <= f' c2) by (apply Hmono; lra).
  replace (f hi + f lo - 2 * f mid) with ((f hi - f mid) - (f mid - f lo))
    by ring.
  rewrite E1, E2, Hstep. nra.
Qed.

(** The intrinsic payoff is convex. *)
Lemma py_max_Rmax (a b : R) : py_max a b = Rmax a b.
Proof.
  unfold py_max, Rmax.
  destruct (Rlt_dec a b), (Rle_dec a b); lra.
Qed.

Lemma py_max_second_difference (m h : R) :
  0 <= py_max (m + h) 0 + py_max (m - h) 0 - 2 * py_max m 0.
Proof.
  unfold py_max.
  destruct (Rlt_dec (m + h) 0), (Rlt_dec (m - h) 0), (Rlt_dec m 0); lra.
Qed.

(** ** The pricing formula as a function of the spot

    The derivative of [call_at] in the spot is [exp (- q * T) * norm_cdf d1],
    which is nondecreasing; the finite-difference gamma inherits its sign
    from that. *)

Section SpotProfile.

Variables K T r q sigma : R.
Hypothesis K_pos : 0 < K.
Hypothesis T_pos : 0 < T.
Hypothesis sigma_pos : 0 < sigma.

Local Abbreviation d1_at := (d1_at K T r q sigma).
Local Abbreviation call_at := (call_at K T r q sigma).
Local Abbreviation put_at := (put_at K T r q sigma).

Lemma vol_sqrt_pos : 0 < sigma * sqrt T.
Proof. apply Rmult_lt_0_compat; [assumption | apply sqrt_lt_R0; assumption]. Qed.

Lemma d1_at_derivable_pt_lim (x : R) :
  0 < x -> derivable_pt_lim d1_at x (/ x * / (sigma * sqrt T)).
Proof.
  intro Hx. pose proof vol_sqrt_pos as Hv. unfold d1_at, Rdiv.
  set (c := (r - q + 0.5 * sigma ^ 2) * T).
  set (iv := / (sigma * sqrt T)).
  replace (/ x * iv) with ((/ x + 0) * iv + (ln (x * / K) + c) * 0) by ring.
  apply (derivable_pt_lim_mult (fun y => ln (y * / K) + c) (fun _ => iv)).
  2: apply derivable_pt_lim_const.
  apply (derivable_pt_lim_plus (fun y => ln (y * / K)) (fun _ => c)).
  2: apply derivable_pt_lim_const.
  replace (/ x) with (/ (x * / K) * (1 * / K + x * 0)) by (field; lra).
  apply (derivable_pt_lim_comp (fun y => y * / K) ln).
  - apply (derivable_pt_lim_mult (fun y => y) (fun _ => / K)).
    + apply derivable_pt_lim_id.
    + apply derivable_pt_lim_const.
  - apply derivable_pt_lim_ln. apply Rmult_lt_0_compat; [assumption |].
    apply Rinv_0_lt_compat; assumption.
Qed.

Lemma d1_at_incr (x y : R) : 0 < x -> x <= y -> d1_at x <= d1_at y.
Proof.
  intros Hx Hxy. pose proof vol_sqrt_pos as Hv. unfold d1_at.
  apply Rmult_le_compat_r.
  - left. apply Rinv_0_lt_compat; assumption.
  - apply Rplus_le_compat_r.
    destruct Hxy as [Hlt | ->]; [| lra].
    left. apply ln_increasing.
    + apply Rdiv_lt_0_compat; assumption.
    + apply Rmult_lt_compat_r; [apply Rinv_0_lt_compat |]; assumption.
Qed.

(** The identity behind the closed-form delta:
    [S e^{-qT} pdf(d1) = K e^{-rT} pdf(d2)]. *)
Lemma pdf_balance (x : R) :
  0 < x ->
  x * exp (- q * T) * norm_pdf (d1_at x)
  = K * exp (- r * T) * norm_pdf (d1_at x - sigma * sqrt T).
Proof.
  intro Hx. pose proof vol_sqrt_pos as Hv.
  assert (HsT : sqrt T * sqrt T = T) by (apply sqrt_sqrt; lra).
  assert (Hdv : d1_at x * (sigma * sqrt T)
                = ln (x / K) + (r - q + 0.5 * sigma ^ 2) * T).
  { unfold d1_at. field.
    assert (0 < sqrt T) by (apply sqrt_lt_R0; assumption). lra. }
  set (d := d1_at x) in *. set (v := sigma * sqrt T) in *.
  assert (Hvv : v * v = sigma ^ 2 * T).
  { unfold v. replace (sigma * sqrt T * (sigma * sqrt T))
      with (sigma ^ 2 * (sqrt T * sqrt T)) by ring. now rewrite HsT. }
  unfold norm_pdf.
  replace (- (d - v) ^ 2 / 2)
    with (- d ^ 2 / 2 + (ln (x / K) + (r - q) * T)).
  2:{ replace ((d - v) ^ 2) with (d ^ 2 - 2 * (d * v) + v * v) by ring.
      rewrite Hdv, Hvv. lra. }
  rewrite !exp_plus, exp_ln by (apply Rdiv_lt_0_compat; assumption).
  replace (- q * T) with (- r * T + (r - q) * T) by ring.
  rewrite exp_plus. field.
  assert (0 < sqrt (2 * PI)) by (apply sqrt_lt_R0; pose proof PI_RGT_0; lra).
  split; lra.
Qed.

Lemma call_at_derivable_pt_lim (x : R) :
  0 < x ->
  derivable_pt_lim call_at x (exp (- q * T) * norm_cdf (d1_at x)).
Proof.
  intro Hx. unfold call_at.
  set (a := exp (- q * T)). set (b := K * exp (- r * T)).
  set (v := sigma * sqrt T). set (l := / x * / v).
  pose proof (d1_at_derivable_pt_lim x Hx) as Hd1. fold v l in Hd1.
  pose proof (pdf_balance x Hx) as Hbal. fold a b v in Hbal.
  replace (a * norm_cdf (d1_at x))
    with (((1 * a + x * 0) * norm_cdf (d1_at x)
           + x * a * (norm_pdf (d1_at x) * l))
          - (0 * norm_cdf (d1_at x - v)
             + b * (norm_pdf (d1_at x - v) * (l - 0))))
    by (replace (b * (norm_pdf (d1_at x - v) * (l - 0)))
          with (b * norm_pdf (d1_at x - v) * l) by ring;
        rewrite <- Hbal; ring).
  apply (derivable_pt_lim_minus
           (fun y => y * a * norm_cdf (d1_at y))
           (fun y => b * norm_cdf (d1_at y - v))).
  - apply (derivable_pt_lim_mult (fun y => y * a)
             (fun y => norm_cdf (d1_at y))).
    + apply (derivable_pt_lim_mult (fun y => y) (fun _ => a)).
      * apply derivable_pt_lim_id.
      * apply derivable_pt_lim_const.
    + apply (derivable_pt_lim_comp d1_at norm_cdf); [exact Hd1 |].
      apply norm_cdf_derivable_pt_lim.
  - apply (derivable_pt_lim_mult (fun _ => b)
             (fun y => norm_cdf (d1_at y - v))).
    + apply derivable_pt_lim_const.
    + apply (derivable_pt_lim_comp (fun y => d1_at y - v) norm_cdf).
      * apply (derivable_pt_lim_minus d1_at (fun _ => v));
          [exact Hd1 | apply derivable_pt_lim_const].
      * apply norm_cdf_derivable_pt_lim.
Qed.

(** Put-call parity on the spot profile. *)
Lemma put_at_parity (x : R) :
  call_at x - put_at x = x * exp (- q * T) - K * exp (- r * T).
Proof.
  unfold call_at, put_at. rewrite !norm_cdf_opp. ring.
Qed.

Lemma call_at_second_difference (lo mid hi : R) :
  0 < lo -> lo < mid -> mid < hi -> mid - lo = hi - mid ->
  0 <= call_at hi + call_at lo - 2 * call_at mid.
Proof.
  intros Hpos Hlo Hhi Hstep.
  apply (second_difference_nonneg call_at
           (fun x => exp (- q * T) * norm_cdf (d1_at x)) lo mid hi);
    try assumption.
  - intros c Hc. apply call_at_derivable_pt_lim. lra.
  - intros x y Hx Hxy Hy. apply Rmult_le_compat_l.
    + left. apply exp_pos.
    + apply norm_cdf_incr, d1_at_incr; lra.
Qed.

Lemma put_at_second_difference (lo mid hi : R) :
  0 < lo -> lo < mid -> mid < hi -> mid - lo = hi - mid ->
  0 <= put_at hi + put_at lo - 2 * put_at mid.
Proof.
  intros Hpos Hlo Hhi Hstep.
  pose proof (call_at_second_difference lo mid hi Hpos Hlo Hhi Hstep).
  pose proof (put_at_parity lo). pose proof (put_at_parity mid).
  pose proof (put_at_parity hi).
  nra.
Qed.

End SpotProfile.

(** ** The two branches of [bsm_pricer] *)

Lemma bsm_pricer_expired (underlying : Equity) (option : EquityOption)
    (rate : R) :
  time_to_maturity option <= 0 ->
  bsm_pricer underlying option rate
  = if is_call option
    then py_max (spot underlying - strike option) 0
    else py_max (strike option - spot underlying) 0.
Proof.
  intro HT. unfold bsm_pricer, is_call.
  destruct (Rle_dec (time_to_maturity option) 0); [reflexivity | lra].
Qed.

Lemma bsm_pricer_live (underlying : Equity) (option : EquityOption)
    (rate : R) :
  0 < time_to_maturity option ->
  bsm_pricer underlying option rate
  = if is_call option
    then call_at (strike option) (time_to_maturity option) rate
           (dividend_yield underlying) (volatility underlying)
           (spot underlying)
    else put_at (strike option) (time_to_maturity option) rate
           (dividend_yield underlying) (volatility underlying)
           (spot underlying).
Proof.
  intro HT. unfold bsm_pricer, is_call, call_at, put_at, d1_at.
  destruct (Rle_dec (time_to_maturity option) 0); [lra | reflexivity].
Qed.

Lemma price_at_spot_self (underlying : Equity) (option : EquityOption)
    (rate : R) :
  price_at_spot underlying option rate (spot underlying)
  = bsm_pricer underlying option rate.
Proof. destruct underlying; reflexivity. Qed.

Lemma is_call_true (option : EquityOption) :
  is_call option = true <-> lower (put_call option) = "call"%string.
Proof. unfold is_call. apply String.eqb_eq. Qed.

Lemma is_call_false (option : EquityOption) :
  is_call option = false <-> lower (put_call option) <> "call"%string.
Proof. unfold is_call. apply String.eqb_neq. Qed.

Example lower_upper_call : lower "CALL" = "call"%string.
Proof. reflexivity. Qed.

Example lower_mixed_put : lower "Put" = "put"%string.
Proof. reflexivity. Qed.

Example lower_keeps_other : lower "call-1 x" = "call-1 x"%string.
Proof. reflexivity. Qed.

Example py_max_below : py_max (4450 - 5000) 0 = 0.
Proof. unfold py_max. destruct (Rlt_dec (4450 - 5000) 0); lra. Qed.

Example py_max_above : py_max (5000 - 4450) 0 = 550.
Proof. unfold py_max. destruct (Rlt_dec (5000 - 4450) 0); lra. Qed.

(** ** Option pricing: the general branch *)

(** C1. With positive spot, volatility, strike and time to maturity,
    [bsm_pricer] returns [S e^{-qT} N(d1) - K e^{-rT} N(d2)] when [put_call]
    lowercases to "call" and [K e^{-rT} N(-d2) - S e^{-qT} N(-d1)] otherwise,
    with [d1 = (ln(S/K) + (r - q + 0.5 sigma^2) T) / (sigma sqrt T)] and
    [d2 = d1 - sigma sqrt T].  [N] is the standard normal distribution
    function: it takes the value one half at zero and its derivative is the
    standard normal density everywhere. *)
Theorem bsm_pricer_general_formula (underlying : Equity)
    (option : EquityOption) (rate : R) :
  0 < spot underlying -> 0 < volatility underlying ->
  0 < strike option -> 0 < time_to_maturity option ->
  let S := spot underlying in
  let K := strike option in
  let T := time_to_maturity option in
  let r := rate in
  let q := dividend_yield underlying in
  let sigma := volatility underlying in
  let N := norm_cdf in
  let d1 := (ln (S / K) + (r - q + 0.5 * sigma ^ 2) * T) / (sigma * sqrt T) in
  let d2 := d1 - sigma * sqrt T in
  (lower (put_call option) = "call"%string ->
   bsm_pricer underlying option rate
   = S * exp (- q * T) * N d1 - K * exp (- r * T) * N d2) /\
  (lower (put_call option) <> "call"%string ->
   bsm_pricer underlying option rate
   = K * exp (- r * T) * N (- d2) - S * exp (- q * T) * N (- d1)) /\
  N 0 = 1 / 2 /\
  (forall x, derivable_pt_lim N x (exp (- x ^ 2 / 2) / sqrt (2 * PI))).
Proof.
  intros HS Hsigma HK HT. cbv zeta.
  rewrite (bsm_pricer_live underlying option rate HT).
  repeat split.
  - intro Hc. apply is_call_true in Hc. rewrite Hc. reflexivity.
  - intro Hc. apply is_call_false in Hc. rewrite Hc. reflexivity.
  - apply norm_cdf_0.
  - intro x. apply (norm_cdf_derivable_pt_lim x).
Qed.

Lemma bsm_pricer_general_formula_witness :
  bsm_pricer (mkEquity 100 0.02 0.2) (mkEquityOption 90 0.5 "Call") 0.05
  = 100 * exp (- (0.02) * 0.5)
    * norm_cdf ((ln (100 / 90) + (0.05 - 0.02 + 0.5 * 0.2 ^ 2) * 0.5)
                / (0.2 * sqrt 0.5))
    - 90 * exp (- (0.05) * 0.5)
      * norm_cdf ((ln (100 / 90) + (0.05 - 0.02 + 0.5 * 0.2 ^ 2) * 0.5)
                  / (0.2 * sqrt 0.5) - 0.2 * sqrt 0.5).
Proof.
  refine (proj1 (bsm_pricer_general_formula
                   (mkEquity 100 0.02 0.2) (mkEquityOption 90 0.5 "Call")
                   0.05 _ _ _ _) _);
    simpl; try lra; reflexivity.
Defined.

(** ** Option pricing: the boundary branch *)

(** C2. At or after expiry ([T <= 0]) [bsm_pricer] returns the intrinsic
    value, [max(S - K, 0)] when [put_call] lowercases to "call" and
    [max(K - S, 0)] otherwise, for every equity (whatever its volatility) and
    every rate. *)
Theorem bsm_pricer_intrinsic (underlying : Equity) (option : EquityOption)
    (rate : R) :
  time_to_maturity option <= 0 ->
  (lower (put_call option) = "call"%string ->
   bsm_pricer underlying option rate
   = Rmax (spot underlying - strike option) 0) /\
  (lower (put_call option) <> "call"%string ->
   bsm_pricer underlying option rate
   = Rmax (strike option - spot underlying) 0).
Proof.
  intro HT. rewrite (bsm_pricer_expired underlying option rate HT).
  split; intro Hc.
  - apply is_call_true in Hc. rewrite Hc. apply py_max_Rmax.
  - apply is_call_false in Hc. rewrite Hc. apply py_max_Rmax.
Qed.

Lemma bsm_pricer_intrinsic_witness :
  bsm_pricer (mkEquity 4450 0 0) (mkEquityOption 5000 0 "put") 0.03
  = Rmax (5000 - 4450) 0.
Proof.
  refine (proj2 (bsm_pricer_intrinsic
                   (mkEquity 4450 0 0) (mkEquityOption 5000 0 "put")
                   0.03 _) _).
  - simpl. lra.
  - simpl. discriminate.
Defined.

(** ** Put-call parity *)

(** C3. For positive spot, strike, maturity and volatility and any rate and
    dividend yield, the price for [put_call = "call"] minus the price for
    [put_call = "put"] on the same equity, strike, maturity and rate is
    [S e^{-qT} - K e^{-rT}]. *)
Theorem bsm_put_call_parity (S K T sigma r q : R) :
  0 < S -> 0 < K -> 0 < T -> 0 < sigma ->
  bsm_pricer (mkEquity S q sigma) (mkEquityOption K T "call") r
  - bsm_pricer (mkEquity S q sigma) (mkEquityOption K T "put") r
  = S * exp (- q * T) - K * exp (- r * T).
Proof.
  intros HS HK HT Hsigma.
  rewrite !bsm_pricer_live by exact HT.
  cbn [is_call put_call strike time_to_maturity spot dividend_yield
       volatility].
  replace (String.eqb (lower "call") "call") with true by reflexivity.
  replace (String.eqb (lower "put") "call") with false by reflexivity.
  apply put_at_parity.
Qed.

Lemma bsm_put_call_parity_witness :
  bsm_pricer (mkEquity 100 0.02 0.2) (mkEquityOption 90 0.5 "call") 0.05
  - bsm_pricer (mkEquity 100 0.02 0.2) (mkEquityOption 90 0.5 "put") 0.05
  = 100 * exp (- (0.02) * 0.5) - 90 * exp (- (0.05) * 0.5).
Proof.
  apply (bsm_put_call_parity 100 90 0.5 0.2 0.05 0.02); lra.
Defined.

(** ** The forward pricer *)

(** C4. [fwd_pricer] returns [S e^{(r-q)T} - K e^{-rT}] for every equity,
    forward and rate: one closed form, whatever the sign of [T].  At
    [T = 0] it is [S - K], which is negative below the strike, so no
    intrinsic-value floor is applied. *)
Theorem fwd_pricer_closed_form :
  (forall (underlying : Equity) (forward : EquityForward) (rate : R),
     fwd_pricer underlying forward rate
     = spot underlying
         * exp ((rate - dividend_yield underlying)
                * forward_time_to_maturity forward)
       - forward_strike forward
         * exp (- rate * forward_time_to_maturity forward)) /\
  (forall (S q sigma K rate : R),
     fwd_pricer (mkEquity S q sigma) (mkEquityForward K 0) rate = S - K).
Proof.
  split.
  - intros. reflexivity.
  - intros. unfold fwd_pricer. simpl.
    rewrite !Rmult_0_r, exp_0. ring.
Qed.

(** ** Dispatch on the option type *)

Lemma bsm_pricer_same_side (underlying : Equity) (o1 o2 : EquityOption)
    (rate : R) :
  strike o1 = strike o2 ->
  time_to_maturity o1 = time_to_maturity o2 ->
  is_call o1 = is_call o2 ->
  bsm_pricer underlying o1 rate = bsm_pricer underlying o2 rate.
Proof.
  intros HK HT Hc. unfold bsm_pricer. unfold is_call in Hc.
  rewrite HK, HT, Hc. reflexivity.
Qed.

(** C5. The dispatch is case-insensitive and defaults to put.  A [put_call]
    whose lowercasing is not "call" is priced by the put branch: the intrinsic
    put value when [T <= 0], the put formula otherwise, which is also the
    price for [put_call = "put"].  "PUT" and "put" give the same price, and
    so do "CALL" and "call". *)
Theorem bsm_pricer_dispatch (underlying : Equity) (K T rate : R) :
  (forall pc : string,
     lower pc <> "call"%string ->
     bsm_pricer underlying (mkEquityOption K T pc) rate
     = (if Rle_dec T 0
        then py_max (K - spot underlying) 0
        else put_at K T rate (dividend_yield underlying)
               (volatility underlying) (spot underlying)) /\
     bsm_pricer underlying (mkEquityOption K T pc) rate
     = bsm_pricer underlying (mkEquityOption K T "put") rate) /\
  bsm_pricer underlying (mkEquityOption K T "PUT") rate
  = bsm_pricer underlying (mkEquityOption K T "put") rate /\
  bsm_pricer underlying (mkEquityOption K T "CALL") rate
  = bsm_pricer underlying (mkEquityOption K T "call") rate.
Proof.
  split; [| split].
  - intros pc Hpc. split.
    + assert (Hc : is_call (mkEquityOption K T pc) = false)
        by (apply is_call_false; exact Hpc).
      destruct (Rle_dec T 0) as [HT | HT].
      * rewrite bsm_pricer_expired by exact HT. rewrite Hc. reflexivity.
      * rewrite bsm_pricer_live by (simpl; lra). rewrite Hc. reflexivity.
    + apply bsm_pricer_same_side; try reflexivity.
      unfold is_call. cbn [put_call].
      apply String.eqb_neq in Hpc. rewrite Hpc. reflexivity.
  - apply bsm_pricer_same_side; reflexivity.
  - apply bsm_pricer_same_side; reflexivity.
Qed.

Lemma bsm_pricer_dispatch_witness :
  bsm_pricer (mkEquity 4450 0 0.2) (mkEquityOption 5000 0 "Straddle") 0
  = bsm_pricer (mkEquity 4450 0 0.2) (mkEquityOption 5000 0 "put") 0.
Proof.
  refine (proj2 (proj1 (bsm_pricer_dispatch (mkEquity 4450 0 0.2) 5000 0 0)
                   "Straddle"%string _)).
  simpl. discriminate.
Defined.

(** ** Finite-difference Greeks *)

(** C6. [bsm_delta] is the central difference
    [(P(spot (1 + bump)) - P(spot (1 - bump))) / (2 bump spot)], where [P x]
    prices the option on a fresh [Equity] with spot [x] and the dividend yield
    and volatility of the original; the pricer applied to the original equity
    is [P spot], so the original is what it was.  Without a [bump] argument
    the bump is 0.001. *)
Theorem bsm_delta_central_difference (underlying : Equity)
    (option : EquityOption) (rate bump : R) :
  let P := fun x =>
    bsm_pricer
      (mkEquity x (dividend_yield underlying) (volatility underlying))
      option rate in
  bsm_delta underlying option rate bump
  = (P (spot underlying * (1 + bump)) - P (spot underlying * (1 - bump)))
    / (2 * bump * spot underlying) /\
  P (spot underlying) = bsm_pricer underlying option rate /\
  bsm_delta_default underlying option rate
  = bsm_delta underlying option rate (1 / 1000).
Proof.
  cbv zeta. split; [| split].
  - unfold bsm_delta. rewrite Rmult_assoc. reflexivity.
  - apply price_at_spot_self.
  - unfold bsm_delta_default, default_bump. f_equal; lra.
Qed.

Lemma bsm_gamma_unfold (underlying : Equity) (option : EquityOption)
    (rate bump : R) :
  bsm_gamma underlying option rate bump
  = (price_at_spot underlying option rate (spot underlying * (1 + bump))
     + price_at_spot underlying option rate (spot underlying * (1 - bump))
     - 2 * price_at_spot underlying option rate (spot underlying))
    / (bump * spot underlying) ^ 2.
Proof.
  rewrite price_at_spot_self. reflexivity.
Qed.

Lemma price_at_spot_expired (underlying : Equity) (option : EquityOption)
    (rate x : R) :
  time_to_maturity option <= 0 ->
  price_at_spot underlying option rate x
  = if is_call option
    then py_max (x - strike option) 0
    else py_max (strike option - x) 0.
Proof.
  intro HT. unfold price_at_spot. now rewrite bsm_pricer_expired.
Qed.

Lemma price_at_spot_live (underlying : Equity) (option : EquityOption)
    (rate x : R) :
  0 < time_to_maturity option ->
  price_at_spot underlying option rate x
  = if is_call option
    then call_at (strike option) (time_to_maturity option) rate
           (dividend_yield underlying) (volatility underlying) x
    else put_at (strike option) (time_to_maturity option) rate
           (dividend_yield underlying) (volatility underlying) x.
Proof.
  intro HT. unfold price_at_spot. now rewrite bsm_pricer_live.
Qed.

(** The centred second difference of the price in the spot is nonnegative. *)
Lemma price_at_spot_second_difference (underlying : Equity)
    (option : EquityOption) (rate bump : R) :
  0 < spot underlying -> 0 < strike option -> 0 < bump < 1 ->
  (0 < time_to_maturity option -> 0 < volatility underlying) ->
  0 <= price_at_spot underlying option rate (spot underlying * (1 + bump))
       + price_at_spot underlying option rate (spot underlying * (1 - bump))
       - 2 * price_at_spot underlying option rate (spot underlying).
Proof.
  intros HS HK [Hb0 Hb1] Hvol.
  set (S := spot underlying) in *. set (K := strike option) in *.
  assert (Hh : 0 < S * bump) by (apply Rmult_lt_0_compat; assumption).
  destruct (Rle_dec (time_to_maturity option) 0) as [HT | HT].
  - rewrite !price_at_spot_expired by exact HT. fold K.
    destruct (is_call option).
    + pose proof (py_max_second_difference (S - K) (S * bump)) as H.
      replace (S * (1 + bump) - K) with (S - K + S * bump) by ring.
      replace (S * (1 - bump) - K) with (S - K - S * bump) by ring.
      exact H.
    + pose proof (py_max_second_difference (K - S) (S * bump)) as H.
      replace (K - S * (1 + bump)) with (K - S - S * bump) by ring.
      replace (K - S * (1 - bump)) with (K - S + S * bump) by ring.
      lra.
  - assert (HT' : 0 < time_to_maturity option) by lra.
    specialize (Hvol HT').
    rewrite !price_at_spot_live by exact HT'. fold K.
    assert (Hlo : 0 < S * (1 - bump)) by (apply Rmult_lt_0_compat; lra).
    destruct (is_call option).
    + apply call_at_second_difference; try assumption; lra.
    + apply put_at_second_difference; try assumption; lra.
Qed.

(** C7. With positive spot and strike, a bump strictly between 0 and 1, and
    positive volatility whenever [T > 0], [bsm_gamma] is
    [(P(spot_up) + P(spot_down) - 2 P(mid)) / (bump spot)^2] over the same
    perturbed spots as delta, and it is nonnegative, for calls and for puts
    alike. *)
Theorem bsm_gamma_nonneg (underlying : Equity) (option : EquityOption)
    (rate bump : R) :
  0 < spot underlying -> 0 < strike option -> 0 < bump < 1 ->
  (0 < time_to_maturity option -> 0 < volatility underlying) ->
  let P := fun x =>
    bsm_pricer
      (mkEquity x (dividend_yield underlying) (volatility underlying))
      option rate in
  bsm_gamma underlying option rate bump
  = (P (spot underlying * (1 + bump)) + P (spot underlying * (1 - bump))
     - 2 * P (spot underlying))
    / (bump * spot underlying) ^ 2 /\
  0 <= bsm_gamma underlying option rate bump.
Proof.
  intros HS HK Hb Hvol. cbv zeta.
  pose proof (bsm_gamma_unfold underlying option rate bump) as Hg.
  unfold price_at_spot in Hg. split; [exact Hg |].
  rewrite bsm_gamma_unfold.
  pose proof (price_at_spot_second_difference underlying option rate bump
                HS HK Hb Hvol) as Hnum.
  assert (Hden : 0 < (bump * spot underlying) ^ 2).
  { apply pow_lt, Rmult_lt_0_compat; lra. }
  apply Rmult_le_pos; [exact Hnum |].
  left. apply Rinv_0_lt_compat. exact Hden.
Qed.

Lemma bsm_gamma_nonneg_witness :
  0 <= bsm_gamma (mkEquity 100 0.02 0.2) (mkEquityOption 90 0.5 "call")
         0.05 0.001.
Proof.
  refine (proj2 (bsm_gamma_nonneg (mkEquity 100 0.02 0.2)
                   (mkEquityOption 90 0.5 "call") 0.05 0.001 _ _ _ _));
    simpl; lra.
Defined.

(** C10. At or after expiry, with positive spot and a bump strictly between 0
    and 1, if the three spots [S (1 - bump)], [S] and [S (1 + bump)] are all
    at or above the strike, or all at or below it, [bsm_gamma] is exactly 0:
    the intrinsic payoff is linear on each side of the strike. *)
Theorem bsm_gamma_expired_zero (underlying : Equity) (option : EquityOption)
    (rate bump : R) :
  time_to_maturity option <= 0 ->
  0 < spot underlying -> 0 < bump < 1 ->
  (strike option <= spot underlying * (1 - bump) /\
   strike option <= spot underlying /\
   strike option <= spot underlying * (1 + bump)) \/
  (spot underlying * (1 - bump) <= strike option /\
   spot underlying <= strike option /\
   spot underlying * (1 + bump) <= strike option) ->
  bsm_gamma underlying option rate bump = 0.
Proof.
  intros HT HS Hb Hside.
  rewrite bsm_gamma_unfold, !price_at_spot_expired by exact HT.
  set (S := spot underlying) in *. set (K := strike option) in *.
  assert (Hnum :
    (if is_call option
     then py_max (S * (1 + bump) - K) 0 else py_max (K - S * (1 + bump)) 0)
    + (if is_call option
       then py_max (S * (1 - bump) - K) 0 else py_max (K - S * (1 - bump)) 0)
    - 2 * (if is_call option then py_max (S - K) 0 else py_max (K - S) 0)
    = 0).
  { unfold py_max. destruct (is_call option).
    - destruct (Rlt_dec (S * (1 + bump) - K) 0),
        (Rlt_dec (S * (1 - bump) - K) 0), (Rlt_dec (S - K) 0); lra.
    - destruct (Rlt_dec (K - S * (1 + bump)) 0),
        (Rlt_dec (K - S * (1 - bump)) 0), (Rlt_dec (K - S) 0); lra. }
  rewrite Hnum. unfold Rdiv. apply Rmult_0_l.
Qed.

Lemma bsm_gamma_expired_zero_witness :
  bsm_gamma (mkEquity 100 0.02 0.2) (mkEquityOption 90 0 "call") 0.05 0.001
  = 0.
Proof.
  apply (bsm_gamma_expired_zero (mkEquity 100 0.02 0.2)
           (mkEquityOption 90 0 "call") 0.05 0.001); simpl; lra.
Defined.

(** ** The boundary branch ignores rate, dividend yield and volatility *)

(** C9. When [T <= 0], two calls of [bsm_pricer] with the same spot, strike,
    time to maturity and [put_call] return the same value, whatever their
    rates, dividend yields and volatilities. *)
Theorem bsm_pricer_expired_independent (S K T : R) (pc : string)
    (q1 sigma1 r1 q2 sigma2 r2 : R) :
  T <= 0 ->
  bsm_pricer (mkEquity S q1 sigma1) (mkEquityOption K T pc) r1
  = bsm_pricer (mkEquity S q2 sigma2) (mkEquityOption K T pc) r2.
Proof.
  intro HT. rewrite !bsm_pricer_expired by exact HT. reflexivity.
Qed.

Lemma bsm_pricer_expired_independent_witness :
  bsm_pricer (mkEquity 100 0.02 0.2) (mkEquityOption 90 (-1) "call") 0.05
  = bsm_pricer (mkEquity 100 0.5 7) (mkEquityOption 90 (-1) "call") (-3).
Proof.
  apply (bsm_pricer_expired_independent 100 90 (-1) "call"
           0.02 0.2 0.05 0.5 7 (-3)).
  lra.
Defined.

(** ** The division that computes [d1] *)






(** On the boundary branch the two models of the pricer agree for every
    input. *)
Lemma bsm_pricer_result_expired (underlying : Equity)
    (option : EquityOption) (rate : R) :
  time_to_maturity option <= 0 ->
  bsm_pricer_result underlying option rate
  = py_returns (np_finite (bsm_pricer underlying option rate)).
Proof.
  intro HT. unfold bsm_pricer_result, bsm_pricer. cbv zeta.
  destruct (Rle_dec (time_to_maturity option) 0); [| lra].
  destruct (String.eqb (lower (put_call option)) "call"); reflexivity.
Qed.

(** A zero strike before expiry raises at [S/K]. *)
Lemma bsm_pricer_result_zero_strike (underlying : Equity)
    (option : EquityOption) (rate : R) :
  0 < time_to_maturity option -> strike option = 0 ->
  bsm_pricer_result underlying option rate = py_ZeroDivisionError.
Proof.
  intros HT HK. unfold bsm_pricer_result. cbv zeta.
  destruct (Rle_dec (time_to_maturity option) 0); [lra |].
  destruct (Req_dec_T (strike option) 0); [reflexivity | contradiction].
Qed.

(** * Further properties of the pricers *)

(** ** Parity and symmetry of [bsm_pricer] *)

Lemma bsm_expired_parity_aux (underlying : Equity) (K T rate : R) :
  T <= 0 ->
  bsm_pricer underlying (mkEquityOption K T "call") rate
  - bsm_pricer underlying (mkEquityOption K T "put") rate
  = spot underlying - K.
Proof.
  intro HT. rewrite !bsm_pricer_expired by exact HT.
  unfold is_call. cbn [put_call strike].
  replace (String.eqb (lower "call") "call") with true by reflexivity.
  replace (String.eqb (lower "put") "call") with false by reflexivity.
  unfold py_max.
  destruct (Rlt_dec (spot underlying - K) 0),
    (Rlt_dec (K - spot underlying) 0); lra.
Qed.

Lemma bsm_pricer_expired_nonneg (underlying : Equity)
    (option : EquityOption) (rate : R) :
  time_to_maturity option <= 0 -> 0 <= bsm_pricer underlying option rate.
Proof.
  intro HT. rewrite bsm_pricer_expired by exact HT. unfold py_max.
  destruct (is_call option);
    [destruct (Rlt_dec (spot underlying - strike option) 0)
    | destruct (Rlt_dec (strike option - spot underlying) 0)]; lra.
Qed.

(** X1. At or after expiry the call and the put are both nonnegative and
    differ by [S - K], for every spot and strike. *)
Theorem bsm_expired_parity (underlying : Equity) (K T rate : R) :
  T <= 0 ->
  bsm_pricer underlying (mkEquityOption K T "call") rate
  - bsm_pricer underlying (mkEquityOption K T "put") rate
  = spot underlying - K /\
  0 <= bsm_pricer underlying (mkEquityOption K T "call") rate /\
  0 <= bsm_pricer underlying (mkEquityOption K T "put") rate.
Proof.
  intro HT. split; [| split].
  - apply bsm_expired_parity_aux. exact HT.
  - apply bsm_pricer_expired_nonneg. exact HT.
  - apply bsm_pricer_expired_nonneg. exact HT.
Qed.

Lemma bsm_expired_parity_witness :
  bsm_pricer (mkEquity 4450 0 0.2) (mkEquityOption 5000 0 "call") 0.01
  - bsm_pricer (mkEquity 4450 0 0.2) (mkEquityOption 5000 0 "put") 0.01
  = 4450 - 5000.
Proof.
  refine (proj1 (bsm_expired_parity (mkEquity 4450 0 0.2) 5000 0 0.01 _)).
  lra.
Defined.

Lemma ln_quotient (x y : R) : 0 < x -> 0 < y -> ln (x / y) = ln x - ln y.
Proof.
  intros Hx Hy. unfold Rdiv.
  rewrite ln_mult by (try apply Rinv_0_lt_compat; assumption).
  rewrite ln_Rinv by assumption. ring.
Qed.

Lemma d1_at_swap (x K T r q sigma : R) :
  0 < x -> 0 < K -> 0 < T -> 0 < sigma ->
  d1_at x T q r sigma K = - (d1_at K T r q sigma x - sigma * sqrt T).
Proof.
  intros Hx HK HT Hsigma. unfold d1_at.
  rewrite (ln_quotient K x), (ln_quotient x K) by assumption.
  assert (Hs : 0 < sqrt T) by (apply sqrt_lt_R0; assumption).
  assert (HsT : sqrt T * sqrt T = T) by (apply sqrt_sqrt; lra).
  set (s := sqrt T) in *.
  rewrite <- HsT. clearbody s.
  replace 0.5 with (/ 2) by lra. field. lra.
Qed.

(** X2. Put-call symmetry: a put on spot [S] and strike [K] with rate [r] and
    dividend yield [q] has the price of the call on spot [K] and strike [S]
    with rate [q] and dividend yield [r], before and after expiry. *)
Theorem bsm_put_call_symmetry (S K T sigma r q : R) :
  0 < S -> 0 < K -> 0 < sigma ->
  bsm_pricer (mkEquity S q sigma) (mkEquityOption K T "put") r
  = bsm_pricer (mkEquity K r sigma) (mkEquityOption S T "call") q.
Proof.
  intros HS HK Hsigma.
  destruct (Rle_dec T 0) as [HT | HT].
  - rewrite !bsm_pricer_expired by exact HT. reflexivity.
  - assert (HT' : 0 < T) by lra.
    rewrite !bsm_pricer_live by exact HT'.
    unfold is_call.
    cbn [put_call strike time_to_maturity spot dividend_yield volatility].
    replace (String.eqb (lower "call") "call") with true by reflexivity.
    replace (String.eqb (lower "put") "call") with false by reflexivity.
    unfold put_at, call_at.
    rewrite (d1_at_swap S K T r q sigma HS HK HT' Hsigma).
    f_equal; f_equal; f_equal; ring.
Qed.

Lemma bsm_put_call_symmetry_witness :
  bsm_pricer (mkEquity 100 0.02 0.2) (mkEquityOption 90 0.5 "put") 0.05
  = bsm_pricer (mkEquity 90 0.05 0.2) (mkEquityOption 100 0.5 "call") 0.02.
Proof.
  apply (bsm_put_call_symmetry 100 90 0.5 0.2 0.05 0.02); lra.
Defined.

(** ** Scaling spot and strike together *)

Lemma py_max_scale (c a : R) : 0 < c -> py_max (c * a) 0 = c * py_max a 0.
Proof.
  intro Hc. unfold py_max.
  destruct (Rlt_dec (c * a) 0), (Rlt_dec a 0); nra.
Qed.

Lemma d1_at_scale (c K T r q sigma x : R) :
  0 < c -> K <> 0 ->
  d1_at (c * K) T r q sigma (c * x) = d1_at K T r q sigma x.
Proof.
  intros Hc HK. unfold d1_at.
  replace (c * x / (c * K)) with (x / K) by (field; lra).
  reflexivity.
Qed.

Lemma bsm_pricer_scale (c S K T sigma r q : R) (pc : string) :
  0 < c -> 0 < K ->
  bsm_pricer (mkEquity (c * S) q sigma) (mkEquityOption (c * K) T pc) r
  = c * bsm_pricer (mkEquity S q sigma) (mkEquityOption K T pc) r.
Proof.
  intros Hc HK.
  destruct (Rle_dec T 0) as [HT | HT].
  - rewrite !bsm_pricer_expired by exact HT.
    cbn [spot strike]. unfold is_call. cbn [put_call].
    replace (c * S - c * K) with (c * (S - K)) by ring.
    replace (c * K - c * S) with (c * (K - S)) by ring.
    destruct (String.eqb (lower pc) "call"); apply py_max_scale; exact Hc.
  - assert (HT' : 0 < T) by lra.
    rewrite !bsm_pricer_live by exact HT'.
    cbn [spot strike time_to_maturity dividend_yield volatility].
    unfold is_call. cbn [put_call]. unfold call_at, put_at.
    rewrite d1_at_scale by lra.
    destruct (String.eqb (lower pc) "call"); ring.
Qed.

(** X3. [bsm_pricer] is homogeneous of degree one in spot and strike:
    multiplying both by [c > 0] multiplies the price by [c]. *)
Theorem bsm_pricer_homogeneous (c S K T sigma r q : R) (pc : string) :
  0 < c -> 0 < K ->
  bsm_pricer (mkEquity (c * S) q sigma) (mkEquityOption (c * K) T pc) r
  = c * bsm_pricer (mkEquity S q sigma) (mkEquityOption K T pc) r.
Proof. apply bsm_pricer_scale. Qed.

Lemma bsm_pricer_homogeneous_witness :
  bsm_pricer (mkEquity (10 * 100) 0.02 0.2)
    (mkEquityOption (10 * 90) 0.5 "put") 0.05
  = 10 * bsm_pricer (mkEquity 100 0.02 0.2) (mkEquityOption 90 0.5 "put")
           0.05.
Proof.
  apply (bsm_pricer_homogeneous 10 100 90 0.5 0.2 0.05 0.02 "put"); lra.
Defined.

(** ** The Greeks under scaling, parity and exchange of the bump's sign *)

(** X4. Multiplying spot and strike by [c > 0] leaves [bsm_delta] unchanged
    and divides [bsm_gamma] by [c]. *)
Theorem bsm_greeks_scaling (c S K T sigma r q bump : R) (pc : string) :
  0 < c -> 0 < S -> 0 < K -> bump <> 0 ->
  bsm_delta (mkEquity (c * S) q sigma) (mkEquityOption (c * K) T pc) r bump
  = bsm_delta (mkEquity S q sigma) (mkEquityOption K T pc) r bump /\
  bsm_gamma (mkEquity (c * S) q sigma) (mkEquityOption (c * K) T pc) r bump
  = bsm_gamma (mkEquity S q sigma) (mkEquityOption K T pc) r bump / c.
Proof.
  intros Hc HS HK Hb.
  unfold bsm_delta, bsm_gamma. cbn [spot dividend_yield volatility].
  replace (c * S * (1 + bump)) with (c * (S * (1 + bump))) by ring.
  replace (c * S * (1 - bump)) with (c * (S * (1 - bump))) by ring.
  rewrite !bsm_pricer_scale by assumption.
  split; field; repeat split; lra.
Qed.

Lemma bsm_greeks_scaling_witness :
  bsm_delta (mkEquity (10 * 100) 0.02 0.2)
    (mkEquityOption (10 * 90) 0.5 "call") 0.05 0.001
  = bsm_delta (mkEquity 100 0.02 0.2) (mkEquityOption 90 0.5 "call")
      0.05 0.001.
Proof.
  refine (proj1 (bsm_greeks_scaling 10 100 90 0.5 0.2 0.05 0.02 0.001
                   "call" _ _ _ _)); lra.
Defined.

(** The call price minus the put price is affine in the spot. *)
Lemma call_minus_put_at_spot (underlying : Equity) (K T rate x : R) :
  price_at_spot underlying (mkEquityOption K T "call") rate x
  - price_at_spot underlying (mkEquityOption K T "put") rate x
  = if Rle_dec T 0 then x - K
    else x * exp (- dividend_yield underlying * T) - K * exp (- rate * T).
Proof.
  unfold price_at_spot. destruct (Rle_dec T 0) as [HT | HT].
  - apply (bsm_expired_parity_aux
             (mkEquity x (dividend_yield underlying) (volatility underlying))).
    exact HT.
  - rewrite !bsm_pricer_live by (simpl; lra). unfold is_call.
    cbn [put_call strike time_to_maturity spot dividend_yield volatility].
    replace (String.eqb (lower "call") "call") with true by reflexivity.
    replace (String.eqb (lower "put") "call") with false by reflexivity.
    apply put_at_parity.
Qed.

Lemma bsm_delta_unfold (underlying : Equity) (option : EquityOption)
    (rate bump : R) :
  bsm_delta underlying option rate bump
  = (price_at_spot underlying option rate (spot underlying * (1 + bump))
     - price_at_spot underlying option rate (spot underlying * (1 - bump)))
    / (2 * (bump * spot underlying)).
Proof. reflexivity. Qed.

(** X5. The call and the put on the same inputs have the same [bsm_gamma]. *)
Theorem bsm_gamma_call_put (underlying : Equity) (K T rate bump : R) :
  0 < spot underlying -> 0 < K -> 0 < bump < 1 ->
  (0 < T -> 0 < volatility underlying) ->
  bsm_gamma underlying (mkEquityOption K T "call") rate bump
  = bsm_gamma underlying (mkEquityOption K T "put") rate bump.
Proof.
  intros HS HK Hb Hvol. rewrite !bsm_gamma_unfold.
  pose proof (call_minus_put_at_spot underlying K T rate
                (spot underlying * (1 + bump))) as Hu.
  pose proof (call_minus_put_at_spot underlying K T rate
                (spot underlying * (1 - bump))) as Hd.
  pose proof (call_minus_put_at_spot underlying K T rate
                (spot underlying)) as Hm.
  f_equal. destruct (Rle_dec T 0); lra.
Qed.

Lemma bsm_gamma_call_put_witness :
  bsm_gamma (mkEquity 100 0.02 0.2) (mkEquityOption 90 0.5 "call") 0.05 0.001
  = bsm_gamma (mkEquity 100 0.02 0.2) (mkEquityOption 90 0.5 "put") 0.05
      0.001.
Proof.
  apply (bsm_gamma_call_put (mkEquity 100 0.02 0.2) 90 0.5 0.05 0.001);
    simpl; lra.
Defined.

(** X6. Delta parity: the call's [bsm_delta] exceeds the put's by
    [exp (- q T)] before expiry and by [1] at or after it. *)
Theorem bsm_delta_call_put (underlying : Equity) (K T rate bump : R) :
  0 < spot underlying -> 0 < K -> 0 < bump < 1 ->
  (0 < T -> 0 < volatility underlying) ->
  (0 < T ->
   bsm_delta underlying (mkEquityOption K T "call") rate bump
   - bsm_delta underlying (mkEquityOption K T "put") rate bump
   = exp (- dividend_yield underlying * T)) /\
  (T <= 0 ->
   bsm_delta underlying (mkEquityOption K T "call") rate bump
   - bsm_delta underlying (mkEquityOption K T "put") rate bump
   = 1).
Proof.
  intros HS HK Hb Hvol. rewrite !bsm_delta_unfold.
  pose proof (call_minus_put_at_spot underlying K T rate
                (spot underlying * (1 + bump))) as Hu.
  pose proof (call_minus_put_at_spot underlying K T rate
                (spot underlying * (1 - bump))) as Hd.
  set (cu := price_at_spot underlying (mkEquityOption K T "call") rate
               (spot underlying * (1 + bump))) in *.
  set (cd := price_at_spot underlying (mkEquityOption K T "call") rate
               (spot underlying * (1 - bump))) in *.
  set (pu := price_at_spot underlying (mkEquityOption K T "put") rate
               (spot underlying * (1 + bump))) in *.
  set (pd := price_at_spot underlying (mkEquityOption K T "put") rate
               (spot underlying * (1 - bump))) in *.
  set (a := exp (- dividend_yield underlying * T)) in *.
  set (x := spot underlying) in *.
  split; intro HT; destruct (Rle_dec T 0) as [HT0 | HT0]; try lra.
  - replace cu with (pu + (x * (1 + bump) * a
                           - K * exp (- rate * T))) by lra.
    replace cd with (pd + (x * (1 - bump) * a
                           - K * exp (- rate * T))) by lra.
    field. lra.
  - replace cu with (pu + (x * (1 + bump) - K)) by lra.
    replace cd with (pd + (x * (1 - bump) - K)) by lra.
    field. lra.
Qed.

Lemma bsm_delta_call_put_witness :
  bsm_delta (mkEquity 100 0.02 0.2) (mkEquityOption 90 0.5 "call") 0.05 0.001
  - bsm_delta (mkEquity 100 0.02 0.2) (mkEquityOption 90 0.5 "put") 0.05
      0.001
  = exp (- (0.02) * 0.5).
Proof.
  refine (proj1 (bsm_delta_call_put (mkEquity 100 0.02 0.2) 90 0.5 0.05
                   0.001 _ _ _ _) _); simpl; lra.
Defined.

(** X10. Both Greeks are even in the bump: [- bump] gives the same delta and
    the same gamma as [bump]. *)
Theorem bsm_greeks_even_in_bump (underlying : Equity)
    (option : EquityOption) (rate bump : R) :
  bump <> 0 -> spot underlying <> 0 ->
  bsm_delta underlying option rate (- bump)
  = bsm_delta underlying option rate bump /\
  bsm_gamma underlying option rate (- bump)
  = bsm_gamma underlying option rate bump.
Proof.
  intros Hb HS. rewrite !bsm_delta_unfold, !bsm_gamma_unfold.
  replace (1 + - bump) with (1 - bump) by ring.
  replace (1 - - bump) with (1 + bump) by ring.
  split; field; repeat split; assumption.
Qed.

Lemma bsm_greeks_even_in_bump_witness :
  bsm_gamma (mkEquity 100 0.02 0.2) (mkEquityOption 90 0.5 "call") 0.05
    (- (0.001))
  = bsm_gamma (mkEquity 100 0.02 0.2) (mkEquityOption 90 0.5 "call") 0.05
      0.001.
Proof.
  refine (proj2 (bsm_greeks_even_in_bump (mkEquity 100 0.02 0.2)
                   (mkEquityOption 90 0.5 "call") 0.05 0.001 _ _));
    simpl; lra.
Defined.

(** ** Strict convexity and the analytic delta *)

Lemma norm_cdf_strictly_incr (a b : R) : a < b -> norm_cdf a < norm_cdf b.
Proof.
  intro Hlt.
  destruct (MVT_cor2 norm_cdf norm_pdf a b Hlt
              (fun c _ => norm_cdf_derivable_pt_lim c)) as [c [Hc _]].
  pose proof (norm_pdf_pos c). nra.
Qed.

Section SpotProfileStrict.

Variables K T r q sigma : R.
Hypothesis K_pos : 0 < K.
Hypothesis T_pos : 0 < T.
Hypothesis sigma_pos : 0 < sigma.

Local Abbreviation d1_at := (d1_at K T r q sigma).
Local Abbreviation call_at := (call_at K T r q sigma).
Local Abbreviation put_at := (put_at K T r q sigma).

(** The closed-form deltas of the call and of the put. *)
Local Abbreviation call_slope := (fun x => exp (- q * T) * norm_cdf (d1_at x)).
Local Abbreviation put_slope :=
  (fun x => exp (- q * T) * norm_cdf (d1_at x) - exp (- q * T)).

Lemma d1_at_strictly_incr (x y : R) : 0 < x -> x < y -> d1_at x < d1_at y.
Proof.
  intros Hx Hxy.
  pose proof (vol_sqrt_pos T sigma T_pos sigma_pos) as Hv. unfold d1_at.
  apply Rmult_lt_compat_r.
  - apply Rinv_0_lt_compat; assumption.
  - apply Rplus_lt_compat_r, ln_increasing.
    + apply Rdiv_lt_0_compat; assumption.
    + apply Rmult_lt_compat_r; [apply Rinv_0_lt_compat |]; assumption.
Qed.

Lemma call_slope_strictly_incr (x y : R) :
  0 < x -> x < y -> call_slope x < call_slope y.
Proof.
  intros Hx Hxy. apply Rmult_lt_compat_l; [apply exp_pos |].
  apply norm_cdf_strictly_incr, d1_at_strictly_incr; assumption.
Qed.

Lemma put_at_derivable_pt_lim (x : R) :
  0 < x -> derivable_pt_lim put_at x (put_slope x).
Proof.
  intro Hx.
  pose proof (call_at_derivable_pt_lim K T r q sigma K_pos T_pos sigma_pos
                x Hx) as Hc.
  assert (Hlin : derivable_pt_lim
                   (fun y => y * exp (- q * T) - K * exp (- r * T)) x
                   (1 * exp (- q * T) + x * 0 - 0)).
  { apply (derivable_pt_lim_minus (fun y => y * exp (- q * T))
             (fun _ => K * exp (- r * T))).
    - apply (derivable_pt_lim_mult (fun y => y) (fun _ => exp (- q * T)));
        [apply derivable_pt_lim_id | apply derivable_pt_lim_const].
    - apply derivable_pt_lim_const. }
  replace (1 * exp (- q * T) + x * 0 - 0) with (exp (- q * T)) in Hlin
    by ring.
  pose proof (derivable_pt_lim_minus _ _ _ _ _ Hc Hlin) as Hd.
  intros eps Heps. destruct (Hd eps Heps) as [delta Hdelta].
  exists delta. intros h Hh0 Hh. specialize (Hdelta h Hh0 Hh).
  unfold minus_fct in Hdelta.
  pose proof (put_at_parity K T r q sigma (x + h)) as P1.
  pose proof (put_at_parity K T r q sigma x) as P2.
  replace (put_at (x + h) - put_at x)
    with (call_at (x + h)
          - ((x + h) * exp (- q * T) - K * exp (- r * T))
          - (call_at x - (x * exp (- q * T) - K * exp (- r * T))))
    by lra.
  exact Hdelta.
Qed.

Lemma call_at_strict_second_difference (lo mid hi : R) :
  0 < lo -> lo < mid -> mid < hi -> mid - lo = hi - mid ->
  0 < call_at hi + call_at lo - 2 * call_at mid.
Proof.
  intros Hpos Hlo Hhi Hstep.
  destruct (MVT_cor2 call_at call_slope lo mid Hlo) as [c1 [E1 [L1 U1]]].
  { intros c Hc. apply call_at_derivable_pt_lim; try assumption. lra. }
  destruct (MVT_cor2 call_at call_slope mid hi Hhi) as [c2 [E2 [L2 U2]]].
  { intros c Hc. apply call_at_derivable_pt_lim; try assumption. lra. }
  assert (Hc : call_slope c1 < call_slope c2)
    by (apply call_slope_strictly_incr; lra).
  replace (call_at hi + call_at lo - 2 * call_at mid)
    with ((call_at hi - call_at mid) - (call_at mid - call_at lo)) by ring.
  rewrite E1, E2, Hstep. nra.
Qed.

Lemma call_at_difference_bracket (lo hi : R) :
  0 < lo -> lo < hi ->
  call_slope lo * (hi - lo) <= call_at hi - call_at lo
  <= call_slope hi * (hi - lo).
Proof.
  intros Hpos Hlt.
  destruct (MVT_cor2 call_at call_slope lo hi Hlt) as [c [E [L U]]].
  { intros c Hc. apply call_at_derivable_pt_lim; try assumption. lra. }
  assert (H1 : call_slope lo < call_slope c)
    by (apply call_slope_strictly_incr; lra).
  assert (H2 : call_slope c < call_slope hi)
    by (apply call_slope_strictly_incr; lra).
  rewrite E. split; nra.
Qed.

End SpotProfileStrict.

(** X7. Before expiry, with positive spot, strike and volatility and a bump
    strictly between 0 and 1, [bsm_gamma] is strictly positive for every
    option type. *)
Theorem bsm_gamma_positive (underlying : Equity) (option : EquityOption)
    (rate bump : R) :
  0 < spot underlying -> 0 < strike option -> 0 < bump < 1 ->
  0 < time_to_maturity option -> 0 < volatility underlying ->
  0 < bsm_gamma underlying option rate bump.
Proof.
  intros HS HK [Hb0 Hb1] HT Hsigma.
  rewrite bsm_gamma_unfold, !price_at_spot_live by exact HT.
  set (x := spot underlying) in *.
  assert (Hh : 0 < x * bump) by (apply Rmult_lt_0_compat; assumption).
  assert (Hlo : 0 < x * (1 - bump)) by (apply Rmult_lt_0_compat; lra).
  assert (Hden : 0 < (bump * x) ^ 2).
  { apply pow_lt, Rmult_lt_0_compat; lra. }
  pose proof (call_at_strict_second_difference
                (strike option) (time_to_maturity option) rate
                (dividend_yield underlying) (volatility underlying)
                HK HT Hsigma (x * (1 - bump)) x (x * (1 + bump)) Hlo)
    as Hcall.
  assert (Hnum : 0 < call_at (strike option) (time_to_maturity option) rate
                       (dividend_yield underlying) (volatility underlying)
                       (x * (1 + bump))
                     + call_at (strike option) (time_to_maturity option)
                         rate (dividend_yield underlying)
                         (volatility underlying) (x * (1 - bump))
                     - 2 * call_at (strike option)
                             (time_to_maturity option) rate
                             (dividend_yield underlying)
                             (volatility underlying) x)
    by (apply Hcall; lra).
  apply Rdiv_lt_0_compat; [| exact Hden].
  destruct (is_call option); [exact Hnum |].
  pose proof (put_at_parity (strike option) (time_to_maturity option) rate
                (dividend_yield underlying) (volatility underlying)) as Hp.
  pose proof (Hp (x * (1 + bump))). pose proof (Hp (x * (1 - bump))).
  pose proof (Hp x). lra.
Qed.

Lemma bsm_gamma_positive_witness :
  0 < bsm_gamma (mkEquity 100 0.02 0.2) (mkEquityOption 90 0.5 "put")
        0.05 0.001.
Proof.
  apply (bsm_gamma_positive (mkEquity 100 0.02 0.2)
           (mkEquityOption 90 0.5 "put") 0.05 0.001); simpl; lra.
Defined.

(** X8. Before expiry the price is differentiable in the spot, and its
    derivative is the closed-form delta: [exp (- q T) N(d1)] for a call and
    [exp (- q T) (N(d1) - 1)] for any other option type. *)
Theorem bsm_pricer_spot_derivative (underlying : Equity)
    (option : EquityOption) (rate x : R) :
  0 < x -> 0 < strike option ->
  0 < time_to_maturity option -> 0 < volatility underlying ->
  let d1 :=
    (ln (x / strike option)
     + (rate - dividend_yield underlying
        + 0.5 * volatility underlying ^ 2) * time_to_maturity option)
    / (volatility underlying * sqrt (time_to_maturity option)) in
  let a := exp (- dividend_yield underlying * time_to_maturity option) in
  derivable_pt_lim
    (fun y =>
       bsm_pricer
         (mkEquity y (dividend_yield underlying) (volatility underlying))
         option rate)
    x
    (if String.eqb (lower (put_call option)) "call"
     then a * norm_cdf d1
     else a * norm_cdf d1 - a).
Proof.
  intros Hx HK HT Hsigma. cbv zeta.
  assert (Hfun : forall y,
            bsm_pricer
              (mkEquity y (dividend_yield underlying)
                 (volatility underlying)) option rate
            = if is_call option
              then call_at (strike option) (time_to_maturity option) rate
                     (dividend_yield underlying) (volatility underlying) y
              else put_at (strike option) (time_to_maturity option) rate
                     (dividend_yield underlying) (volatility underlying) y).
  { intro y. apply (price_at_spot_live underlying option rate y HT). }
  pose proof (call_at_derivable_pt_lim _ _ rate (dividend_yield underlying)
                _ HK HT Hsigma x Hx) as Hc.
  pose proof (put_at_derivable_pt_lim _ _ rate (dividend_yield underlying)
                _ HK HT Hsigma x Hx) as Hp.
  fold (is_call option).
  intros eps Heps.
  destruct (is_call option) eqn:Hcall.
  - destruct (Hc eps Heps) as [delta Hd]. exists delta. intros h Hh0 Hh.
    rewrite !Hfun. apply Hd; assumption.
  - destruct (Hp eps Heps) as [delta Hd]. exists delta. intros h Hh0 Hh.
    rewrite !Hfun. apply Hd; assumption.
Qed.

Lemma bsm_pricer_spot_derivative_witness :
  derivable_pt_lim
    (fun y => bsm_pricer (mkEquity y 0 0.2) (mkEquityOption 100 1 "call") 0)
    100
    (exp (- 0 * 1)
     * norm_cdf ((ln (100 / 100) + (0 - 0 + 0.5 * 0.2 ^ 2) * 1)
                 / (0.2 * sqrt 1))).
Proof.
  apply (bsm_pricer_spot_derivative (mkEquity 7 0 0.2)
           (mkEquityOption 100 1 "call") 0 100); simpl; lra.
Defined.

Lemma quotient_bracket (lo hi num den : R) :
  0 < den -> lo * den <= num <= hi * den -> lo <= num / den <= hi.
Proof.
  intros Hden [H1 H2].
  assert (Hq : num / den * den = num) by (field; lra).
  split; apply Rmult_le_reg_r with den; try assumption; lra.
Qed.

(** X9. Before expiry the finite-difference delta lies between the
    closed-form deltas at the two bumped spots: between
    [a (N(d1(S (1 - bump))) - p)] and [a (N(d1(S (1 + bump))) - p)], with
    [a = exp (- q T)], [p = 0] for a call and [p = 1] otherwise. *)
Theorem bsm_delta_bracket (underlying : Equity) (option : EquityOption)
    (rate bump : R) :
  0 < spot underlying -> 0 < strike option -> 0 < bump < 1 ->
  0 < time_to_maturity option -> 0 < volatility underlying ->
  let d1 := d1_at (strike option) (time_to_maturity option) rate
              (dividend_yield underlying) (volatility underlying) in
  let a := exp (- dividend_yield underlying * time_to_maturity option) in
  let p := if String.eqb (lower (put_call option)) "call" then 0 else 1 in
  a * (norm_cdf (d1 (spot underlying * (1 - bump))) - p)
  <= bsm_delta underlying option rate bump
  <= a * (norm_cdf (d1 (spot underlying * (1 + bump))) - p).
Proof.
  intros HS HK [Hb0 Hb1] HT Hsigma. cbv zeta.
  rewrite bsm_delta_unfold, !price_at_spot_live by exact HT.
  fold (is_call option).
  set (x := spot underlying) in *.
  assert (Hh : 0 < x * bump) by (apply Rmult_lt_0_compat; assumption).
  assert (Hlo : 0 < x * (1 - bump)) by (apply Rmult_lt_0_compat; lra).
  assert (Hlt : x * (1 - bump) < x * (1 + bump)) by lra.
  pose proof (call_at_difference_bracket
                (strike option) (time_to_maturity option) rate
                (dividend_yield underlying) (volatility underlying)
                HK HT Hsigma _ _ Hlo Hlt) as [B1 B2].
  pose proof (put_at_parity (strike option) (time_to_maturity option) rate
                (dividend_yield underlying) (volatility underlying)) as Hp.
  pose proof (Hp (x * (1 + bump))) as Pu.
  pose proof (Hp (x * (1 - bump))) as Pd.
  set (a := exp (- dividend_yield underlying * time_to_maturity option))
    in *.
  assert (Hden : 0 < 2 * (bump * x)) by lra.
  assert (Hw : x * (1 + bump) - x * (1 - bump) = 2 * (bump * x)) by ring.
  rewrite Hw in B1, B2.
  destruct (is_call option); apply quotient_bracket;
    try exact Hden; split; nra.
Qed.

Lemma bsm_delta_bracket_witness :
  exp (- (0.02) * 0.5)
  * (norm_cdf (d1_at 90 0.5 0.05 0.02 0.2 (100 * (1 - 0.001))) - 0)
  <= bsm_delta (mkEquity 100 0.02 0.2) (mkEquityOption 90 0.5 "call")
       0.05 0.001.
Proof.
  refine (proj1 (bsm_delta_bracket (mkEquity 100 0.02 0.2)
                   (mkEquityOption 90 0.5 "call") 0.05 0.001 _ _ _ _ _));
    simpl; lra.
Defined.

(** ** The Greeks at or after expiry *)

(** X11. At or after expiry, with positive spot and a bump strictly between
    0 and 1, [bsm_delta] is the slope of the intrinsic payoff: [1] for a call
    and [0] otherwise when both bumped spots are at or above the strike, [0]
    for a call and [-1] otherwise when both are at or below it, and [1/2]
    for a call and [-1/2] otherwise when the spot is the strike. *)
Theorem bsm_delta_expired (underlying : Equity) (option : EquityOption)
    (rate bump : R) :
  time_to_maturity option <= 0 ->
  0 < spot underlying -> 0 < bump < 1 ->
  let call := String.eqb (lower (put_call option)) "call" in
  (strike option <= spot underlying * (1 - bump) ->
   bsm_delta underlying option rate bump = if call then 1 else 0) /\
  (spot underlying * (1 + bump) <= strike option ->
   bsm_delta underlying option rate bump = if call then 0 else - 1) /\
  (spot underlying = strike option ->
   bsm_delta underlying option rate bump = if call then 1 / 2 else - 1 / 2).
Proof.
  intros HT HS [Hb0 Hb1]. cbv zeta. fold (is_call option).
  rewrite bsm_delta_unfold, !price_at_spot_expired by exact HT.
  set (x := spot underlying) in *. set (K := strike option) in *.
  assert (Hh : 0 < x * bump) by (apply Rmult_lt_0_compat; assumption).
  unfold py_max.
  repeat split; intro Hside; destruct (is_call option);
    repeat match goal with
           | |- context [Rlt_dec ?u ?v] => destruct (Rlt_dec u v)
           end;
    try lra; try (field; lra);
    apply Rmult_eq_reg_r with (2 * (bump * x)); try lra;
    unfold Rdiv; rewrite ?Rmult_assoc, ?Rinv_l by lra; lra.
Qed.

Lemma bsm_delta_expired_witness :
  bsm_delta (mkEquity 100 0.02 0.2) (mkEquityOption 100 0 "put") 0.05 0.001
  = - 1 / 2.
Proof.
  refine (proj2 (proj2 (bsm_delta_expired (mkEquity 100 0.02 0.2)
                          (mkEquityOption 100 0 "put") 0.05 0.001 _ _ _))
            _); simpl; lra.
Defined.

(** X12. At or after expiry with the spot at the strike, [bsm_gamma] is
    [1 / (bump * spot)] for every option type: it grows without bound as the
    bump shrinks. *)
Theorem bsm_gamma_expired_at_strike (underlying : Equity)
    (option : EquityOption) (rate bump : R) :
  time_to_maturity option <= 0 ->
  0 < spot underlying -> 0 < bump < 1 ->
  spot underlying = strike option ->
  bsm_gamma underlying option rate bump = 1 / (bump * spot underlying).
Proof.
  intros HT HS [Hb0 Hb1] HK.
  rewrite bsm_gamma_unfold, !price_at_spot_expired by exact HT.
  rewrite <- HK. set (x := spot underlying) in *.
  assert (Hh : 0 < x * bump) by (apply Rmult_lt_0_compat; assumption).
  unfold py_max.
  destruct (is_call option);
    repeat match goal with
           | |- context [Rlt_dec ?u ?v] => destruct (Rlt_dec u v)
           end;
    try lra; field; lra.
Qed.

Lemma bsm_gamma_expired_at_strike_witness :
  bsm_gamma (mkEquity 100 0.02 0.2) (mkEquityOption 100 0 "call") 0.05 0.001
  = 1 / (0.001 * 100).
Proof.
  apply (bsm_gamma_expired_at_strike (mkEquity 100 0.02 0.2)
           (mkEquityOption 100 0 "call") 0.05 0.001); simpl; lra.
Defined.

(** ** A zero bump or a zero spot *)

Lemma greek_divide_expired (option : EquityOption) (x y : R) :
  time_to_maturity option <= 0 ->
  greek_divide option x y = py_true_divide x y.
Proof.
  intro HT. unfold greek_divide, price_is_numpy.
  destruct (Rle_dec (time_to_maturity option) 0); [reflexivity | lra].
Qed.

Lemma greek_divide_live (option : EquityOption) (x y : R) :
  0 < time_to_maturity option ->
  greek_divide option x y = py_returns (np_true_divide x y).
Proof.
  intro HT. unfold greek_divide, price_is_numpy.
  destruct (Rle_dec (time_to_maturity option) 0); [lra | reflexivity].
Qed.

Lemma greek_divide_nonzero (option : EquityOption) (x y : R) :
  y <> 0 -> greek_divide option x y = py_returns (np_finite (x / y)).
Proof.
  intro Hy. unfold greek_divide, py_true_divide, np_true_divide.
  destruct (price_is_numpy option), (Req_dec_T y 0);
    try contradiction; reflexivity.
Qed.

(** X13. The last division of [bsm_delta] and [bsm_gamma] is unguarded.  When
    [bump * spot] is zero, both raise [ZeroDivisionError] at or after expiry,
    where the prices are Python numbers, and both return not-a-number before
    expiry, where the prices are numpy values and the dividend is zero too.
    With positive spot and strike, a bump strictly between 0 and 1 and
    positive volatility before expiry, both return the finite quotients
    [bsm_delta] and [bsm_gamma]. *)
Theorem bsm_greeks_zero_divisor (underlying : Equity)
    (option : EquityOption) (rate bump : R) :
  (bump * spot underlying = 0 -> time_to_maturity option <= 0 ->
   bsm_delta_result underlying option rate bump = py_ZeroDivisionError /\
   bsm_gamma_result underlying option rate bump = py_ZeroDivisionError) /\
  (bump * spot underlying = 0 -> 0 < time_to_maturity option ->
   strike option <> 0 ->
   bsm_delta_result underlying option rate bump = py_returns np_nan /\
   bsm_gamma_result underlying option rate bump = py_returns np_nan) /\
  (0 < spot underlying -> 0 < strike option -> 0 < bump < 1 ->
   (0 < time_to_maturity option -> 0 < volatility underlying) ->
   bsm_delta_result underlying option rate bump
   = py_returns (np_finite (bsm_delta underlying option rate bump)) /\
   bsm_gamma_result underlying option rate bump
   = py_returns (np_finite (bsm_gamma underlying option rate bump))).
Proof.
  split; [| split].
  - intros Hz HT. unfold bsm_delta_result, bsm_gamma_result. cbv zeta.
    rewrite !greek_divide_expired by exact HT. unfold py_true_divide.
    rewrite Hz.
    destruct (Req_dec_T (2 * 0) 0) as [_ | Hne]; [| exfalso; lra].
    destruct (Req_dec_T (0 ^ 2) 0) as [_ | Hne]; [| exfalso; lra].
    split; reflexivity.
  - intros Hz HT HK. unfold bsm_delta_result, bsm_gamma_result. cbv zeta.
    rewrite !greek_divide_live by exact HT.
    replace (spot underlying * (1 + bump)) with (spot underlying) by lra.
    replace (spot underlying * (1 - bump)) with (spot underlying) by lra.
    fold (price_at_spot underlying option rate (spot underlying)).
    rewrite price_at_spot_self, Hz.
    set (p := bsm_pricer underlying option rate).
    unfold np_true_divide.
    destruct (Req_dec_T (2 * 0) 0) as [_ | Hne]; [| exfalso; lra].
    destruct (Req_dec_T (0 ^ 2) 0) as [_ | Hne]; [| exfalso; lra].
    destruct (Req_dec_T (p - p) 0) as [_ | Hne]; [| exfalso; lra].
    destruct (Req_dec_T (p + p - 2 * p) 0) as [_ | Hne]; [| exfalso; lra].
    split; reflexivity.
  - intros HS HK [Hb0 Hb1] Hvol.
    assert (Hh : 0 < bump * spot underlying)
      by (apply Rmult_lt_0_compat; assumption).
    unfold bsm_delta_result, bsm_gamma_result. cbv zeta.
    rewrite !greek_divide_nonzero.
    + split; reflexivity.
    + apply Rgt_not_eq, pow_lt. exact Hh.
    + lra.
Qed.

Lemma bsm_greeks_zero_divisor_witness :
  bsm_delta_result (mkEquity 100 0.02 0.2) (mkEquityOption 90 0 "call")
    0.05 0
  = py_ZeroDivisionError.
Proof.
  refine (proj1 (proj1 (bsm_greeks_zero_divisor (mkEquity 100 0.02 0.2)
                          (mkEquityOption 90 0 "call") 0.05 0) _ _));
    simpl; lra.
Defined.

(** ** The forward pricer *)

(** X14. Before expiry [fwd_pricer] exceeds the call price minus the put
    price on the same inputs by [S exp (- q T) (exp (r T) - 1)]: the two
    agree when the rate is zero, and the forward value is the larger one
    when the rate is positive. *)
Theorem fwd_pricer_vs_call_minus_put (S K T sigma r q : R) :
  0 < S -> 0 < K -> 0 < T -> 0 < sigma ->
  let call := bsm_pricer (mkEquity S q sigma) (mkEquityOption K T "call") r in
  let put := bsm_pricer (mkEquity S q sigma) (mkEquityOption K T "put") r in
  let fwd := fwd_pricer (mkEquity S q sigma) (mkEquityForward K T) r in
  fwd - (call - put) = S * exp (- q * T) * (exp (r * T) - 1) /\
  (r = 0 -> fwd = call - put) /\
  (0 < r -> call - put < fwd).
Proof.
  intros HS HK HT Hsigma. cbv zeta.
  pose proof (call_minus_put_at_spot (mkEquity S q sigma) K T r S) as Hpar.
  unfold price_at_spot in Hpar. cbn [dividend_yield volatility] in Hpar.
  destruct (Rle_dec T 0) as [HT0 | _]; [lra |].
  unfold fwd_pricer.
  cbn [spot dividend_yield forward_strike forward_time_to_maturity].
  replace ((r - q) * T) with (- q * T + r * T) by ring.
  rewrite exp_plus.
  set (a := exp (- q * T)) in *. set (b := exp (- r * T)) in *.
  assert (Ha : 0 < a) by apply exp_pos.
  rewrite Hpar. split; [| split].
  - ring.
  - intros Hr. subst b. rewrite Hr, !Rmult_0_l, exp_0. ring.
  - intro Hr.
    assert (He : 1 < exp (r * T)).
    { rewrite <- exp_0. apply exp_increasing.
      apply Rmult_lt_0_compat; assumption. }
    assert (HSa : 0 < S * a) by (apply Rmult_lt_0_compat; assumption).
    nra.
Qed.

Lemma fwd_pricer_vs_call_minus_put_witness :
  fwd_pricer (mkEquity 100 0.02 0.2) (mkEquityForward 90 0.5) 0.05
  - (bsm_pricer (mkEquity 100 0.02 0.2) (mkEquityOption 90 0.5 "call") 0.05
     - bsm_pricer (mkEquity 100 0.02 0.2) (mkEquityOption 90 0.5 "put")
         0.05)
  = 100 * exp (- (0.02) * 0.5) * (exp (0.05 * 0.5) - 1).
Proof.
  refine (proj1 (fwd_pricer_vs_call_minus_put 100 90 0.5 0.2 0.05 0.02
                   _ _ _ _)); lra.
Defined.

(** X15. [fwd_pricer] is zero exactly at the strike
    [S exp ((2 r - q) T)]; it is strictly increasing in the spot and strictly
    decreasing in the strike. *)
Theorem fwd_pricer_zero_and_monotone (q sigma T r : R) :
  (forall S K,
     fwd_pricer (mkEquity S q sigma) (mkEquityForward K T) r = 0
     <-> K = S * exp ((2 * r - q) * T)) /\
  (forall S1 S2 K, S1 < S2 ->
     fwd_pricer (mkEquity S1 q sigma) (mkEquityForward K T) r
     < fwd_pricer (mkEquity S2 q sigma) (mkEquityForward K T) r) /\
  (forall S K1 K2, K1 < K2 ->
     fwd_pricer (mkEquity S q sigma) (mkEquityForward K2 T) r
     < fwd_pricer (mkEquity S q sigma) (mkEquityForward K1 T) r).
Proof.
  unfold fwd_pricer.
  cbn [spot dividend_yield forward_strike forward_time_to_maturity].
  assert (Ha : 0 < exp ((r - q) * T)) by apply exp_pos.
  assert (Hb : 0 < exp (- r * T)) by apply exp_pos.
  assert (Hab : exp ((2 * r - q) * T) * exp (- r * T) = exp ((r - q) * T)).
  { rewrite <- exp_plus. f_equal. ring. }
  set (a := exp ((r - q) * T)) in *. set (b := exp (- r * T)) in *.
  set (c := exp ((2 * r - q) * T)) in *.
  split; [| split].
  - intros S K. split.
    + intro H0. apply Rmult_eq_reg_r with b; [| lra].
      rewrite Rmult_assoc, Hab. lra.
    + intros ->. rewrite Rmult_assoc, Hab. lra.
  - intros S1 S2 K Hlt. nra.
  - intros S K1 K2 Hlt. nra.
Qed.

Lemma fwd_pricer_zero_and_monotone_witness :
  fwd_pricer (mkEquity 100 0.02 0.2)
    (mkEquityForward (100 * exp ((2 * 0.05 - 0.02) * 0.5)) 0.5) 0.05
  = 0.
Proof.
  apply (proj1 (fwd_pricer_zero_and_monotone 0.02 0.2 0.5 0.05)).
  reflexivity.
Defined.
